(** * A generic chained hash table (package [hashtable])

    Shallow embedding of the Go package [hashtable]: the types [Table] and
    [kv], the constructor [New] and the methods [Get] and [Insert], followed
    by the two demonstration tables [t1] and [t2] of the accompanying text.

    Modelling conventions.
    - Go's [int] is embedded as [Z].  The package itself does no arithmetic
      on [int]; only the demonstration hash functions do, and their
      wrap-around (32-bit FNV) is written out.
    - A slice is a [list]; a [nil] slice and an empty slice are both [[]]
      (the package only ranges over, indexes and appends to its slices).
    - The constraint [K comparable] is [EqDecision K]: [key == kv.Key]
      decides equality of keys.  This is Go's [==] on every comparable type
      on which [==] is an equality; floating-point keys, whose NaN differs
      from itself, are outside the embedding.
    - The zero value of [V] ([var zero V]) is the class [ZeroValue].
    - Indexing a slice out of range and [make] with a negative length are
      run-time panics; they are the [Panicked] results of the embedding.
    - A method with receiver [t *Table(K, V)] is a computation in the monad
      [M]: it takes the table, and returns its result (or the panic) together
      with the table it leaves behind.
    - The stored hash function is a total function [K → Z → Z].
    - The bucket slices are reachable only through the table, so writing
      [t.table[i][j].Value] and assigning [append(t.table[i], _)] to
      [t.table[i]] are modelled as replacing bucket [i]. *)

From Stdlib Require Import ZArith Lia.
From stdpp Require Import base decidable option list strings.

Local Open Scope Z_scope.

(** ** Results of operations that may panic *)

Inductive panic : Type :=
  | IndexOutOfRange (i : Z) (len : nat)
  | MakeLenOutOfRange (n : Z).

Inductive outcome (A : Type) : Type :=
  | Ok (a : A)
  | Panicked (p : panic).

Arguments Ok {A} a.
Arguments Panicked {A} p.

(** The zero value of a Go type. *)
Class ZeroValue (V : Type) : Type := zero : V.

#[global] Instance int_zero : ZeroValue Z := 0.
#[global] Instance string_zero : ZeroValue string := EmptyString.

(** Indexing a slice with an [int]: [l[i]]. *)
Definition index {A : Type} (l : list A) (i : Z) : option A :=
  if decide (0 ≤ i) then l !! Z.to_nat i else None.

(** ** The data model *)

(** [type kv(type K comparable, V interface{}) struct { Key K; Value V }] *)
Record kv (K V : Type) : Type := Build_kv { Key : K; Value : V }.

Arguments Build_kv {K V} Key Value.
Arguments Key {K V} _.
Arguments Value {K V} _.

(** [type Table(type K comparable, V interface{}) struct
       { hash func(key K, m int) int; m int; table [][]kv }] *)
Record Table (K V : Type) : Type := Build_Table {
  hash : K → Z → Z;
  m : Z;
  table : list (list (kv K V))
}.

Arguments Build_Table {K V} hash m table.
Arguments hash {K V} _ _ _.
Arguments m {K V} _.
Arguments table {K V} _.

(** Computations on a table that may panic.  A panic leaves the table as it
    was when the panic was raised. *)
Definition M (K V A : Type) : Type := Table K V → outcome A * Table K V.

#[global] Instance M_ret {K V} : MRet (M K V) :=
  λ A (a : A) t, (Ok a, t).

#[global] Instance M_bind {K V} : MBind (M K V) :=
  λ A B (f : A → M K V B) (c : M K V A) t,
    match c t with
    | (Ok a, t') => f a t'
    | (Panicked p, t') => (Panicked p, t')
    end.

Definition throw {K V A} (p : panic) : M K V A := λ t, (Panicked p, t).

Section hashtable.
Context {K V : Type} `{EqDecision K} `{ZeroValue V}.

Local Abbreviation kv := (kv K V).
Local Abbreviation Table := (Table K V).
Local Abbreviation M := (M K V).

(** *** Elementary accesses to the receiver *)

(** [t.hash(key, t.m)] *)
Definition call_hash (key : K) : M Z :=
  λ t, (Ok (hash t key (m t)), t).

(** [t.table[i]] *)
Definition load_bucket (i : Z) : M (list kv) :=
  λ t, match index (table t) i with
       | Some b => (Ok b, t)
       | None => (Panicked (IndexOutOfRange i (length (table t))), t)
       end.

(** [t.table[i][j]] *)
Definition load_entry (i : Z) (j : nat) : M kv :=
  b ← load_bucket i;
  match b !! j with
  | Some e => mret e
  | None => throw (IndexOutOfRange (Z.of_nat j) (length b))
  end.

(** [t.table[i] = b] *)
Definition store_bucket (i : Z) (b : list kv) : M unit :=
  λ t, match index (table t) i with
       | Some _ =>
           (Ok (), Build_Table (hash t) (m t) (<[Z.to_nat i := b]> (table t)))
       | None => (Panicked (IndexOutOfRange i (length (table t))), t)
       end.

(** [t.table[i][j].Value = value] *)
Definition store_value (i : Z) (j : nat) (value : V) : M unit :=
  b ← load_bucket i;
  match b !! j with
  | Some e => store_bucket i (<[j := Build_kv (Key e) value]> b)
  | None => throw (IndexOutOfRange (Z.of_nat j) (length b))
  end.

(** [for j, kv := range b { if key == kv.Key { ... return } }]: the first
    position of [b] whose key equals [key], if there is one. *)
Definition range_find (key : K) (b : list kv) : option (nat * kv) :=
  list_find (λ e, key = Key e) b.

(** *** The package's functions *)

(** [New(m, hash)]: [make([][](kv(K, V)), m)] panics for a negative [m]
    and otherwise yields [m] nil buckets. *)
Definition New (n : Z) (hashFn : K → Z → Z) : outcome Table :=
  if decide (n < 0) then Panicked (MakeLenOutOfRange n)
  else Ok (Build_Table hashFn n (replicate (Z.to_nat n) [])).

(** [Get(key)]: hash the key, scan the bucket [t.table[i]], and return
    [t.table[i][j].Value, true] at the first match [j]; without a match,
    the zero value of [V] and [false]. *)
Definition Get (key : K) : M (V * bool) :=
  i ← call_hash key;
  b ← load_bucket i;
  match range_find key b with
  | Some (j, _) =>
      e ← load_entry i j;
      mret (Value e, true)
  | None => mret (zero, false)
  end.

(** [Insert(key, value)]: hash the key and scan the bucket [t.table[i]]; at
    the first match [j] overwrite [t.table[i][j].Value] and return; without
    a match, [t.table[i] = append(t.table[i], kv{key, value})]. *)
Definition Insert (key : K) (value : V) : M unit :=
  i ← call_hash key;
  b ← load_bucket i;
  match range_find key b with
  | Some (j, _) => store_value i j value
  | None =>
      b' ← load_bucket i;
      store_bucket i (b' ++ [Build_kv key value])
  end.

(** *** Sequences of operations *)

Inductive op : Type :=
  | OpGet (key : K)
  | OpInsert (key : K) (value : V).

Definition exec (o : op) : M unit :=
  match o with
  | OpGet key => Get key ;; mret ()
  | OpInsert key value => Insert key value
  end.

Fixpoint run (os : list op) : M unit :=
  match os with
  | [] => mret ()
  | o :: os' => exec o ;; run os'
  end.

(** *** Derived notions *)

(** The bucket that [Insert(key, value)] leaves in place of its target
    bucket [b]: the value of the first entry with this key overwritten where
    it stands, or a new entry after the last one (lemma [Insert_eq]). *)
Definition upsert (key : K) (value : V) (b : list kv) : list kv :=
  match range_find key b with
  | Some (j, e) => <[j := Build_kv (Key e) value]> b
  | None => b ++ [Build_kv key value]
  end.

(** The keys passed to [Insert] by a sequence of operations, in order. *)
Fixpoint inserted_keys (os : list op) : list K :=
  match os with
  | [] => []
  | OpGet _ :: os' => inserted_keys os'
  | OpInsert key _ :: os' => key :: inserted_keys os'
  end.

(** *** Predicates on tables *)

(** The caller's obligation on the hash function: [0 <= hash(key, m) < m]. *)
Definition hash_in_range (t : Table) : Prop :=
  ∀ key, 0 ≤ hash t key (m t) < m t.

(** The bucket array has [m] buckets, as [New] allocates it. *)
Definition well_formed (t : Table) : Prop :=
  0 ≤ m t ∧ length (table t) = Z.to_nat (m t).

(** [t] is the table left by the operations [os] applied, none of them
    panicking, to the table [New(n, hashFn)]. *)
Definition built (n : Z) (hashFn : K → Z → Z) (os : list op) (t : Table) : Prop :=
  ∃ t0, New n hashFn = Ok t0 ∧ run os t0 = (Ok (), t).

Definition reachable (t : Table) : Prop :=
  ∃ n hashFn os, built n hashFn os t.

(** The entry at position [j] of bucket [i]. *)
Definition entry_at (t : Table) (i j : nat) : option kv :=
  table t !! i ≫= (.!! j).

(** The keys of a bucket, in bucket order. *)
Definition keys (b : list kv) : list K := Key <$> b.

(** [key] occurs in some bucket of the table. *)
Definition present (t : Table) (key : K) : Prop :=
  ∃ i j e, entry_at t i j = Some e ∧ Key e = key.

(** The number of entries of bucket [i] (0 when there is no such bucket). *)
Definition bucket_len (t : Table) (i : nat) : nat :=
  length (default [] (table t !! i)).

(** The data-model invariant, bucket by bucket: the keys of a bucket are
    pairwise distinct and all hash to the bucket's index. *)
Definition buckets_ok (t : Table) : Prop :=
  ∀ (i : nat) b, table t !! i = Some b →
    NoDup (keys b) ∧ ∀ key, key ∈ keys b → hash t key (m t) = Z.of_nat i.

(** The distinct elements of [ks] in the order of their first occurrence. *)
Fixpoint first_occurrences (ks : list K) : list K :=
  match ks with
  | [] => []
  | k :: ks' => k :: filter (λ k', k' ≠ k) (first_occurrences ks')
  end.

(** *** Histories *)

(** The key an operation is called with. *)
Definition op_key (o : op) : K :=
  match o with
  | OpGet key => key
  | OpInsert key _ => key
  end.

(** The value most recently passed to [Insert] with [key] by a sequence of
    operations; [acc] when there is none. *)
Fixpoint last_inserted (key : K) (os : list op) (acc : option V) : option V :=
  match os with
  | [] => acc
  | OpGet _ :: os' => last_inserted key os' acc
  | OpInsert key' value :: os' =>
      last_inserted key os' (if decide (key' = key) then Some value else acc)
  end.

(** The pair [Get] returns for a key bound to [o]. *)
Definition found (o : option V) : V * bool :=
  match o with
  | Some value => (value, true)
  | None => (zero, false)
  end.

End hashtable.

(** ** The demonstration tables *)

(** [hash/fnv]'s [New32]: 32-bit FNV-1 over the bytes of the key. *)
Definition offset32 : Z := 2166136261.
Definition prime32 : Z := 16777619.

Definition bytes (s : string) : list Z :=
  (λ c, Z.of_N (Ascii.N_of_ascii c)) <$> String.list_ascii_of_string s.

Definition Sum32 (data : list Z) : Z :=
  foldl (λ h c, Z.lxor ((h * prime32) mod 2 ^ 32) c) offset32 data.

(** [func(key string, m int) int { ...; return int(h.Sum32()) % m }], with a
    64-bit [int]; Go's [%] is the truncated remainder [Z.rem] (and panics
    for [m = 0], a case the demonstration does not meet). *)
Definition t1_hash (key : string) (n : Z) : Z := Z.rem (Sum32 (bytes key)) n.

(** [func(key int, m int) int { return key % m }] *)
Definition t2_hash (key : Z) (n : Z) : Z := Z.rem key n.

Definition strs : list string := ["foo"; "bar"; "baz"]%string.

(** [for i, s := range strs { t1.Insert(s, i); t2.Insert(i, s) }] *)
Definition fill1 : list (@op string Z) :=
  imap (λ i s, OpInsert s (Z.of_nat i)) strs.
Definition fill2 : list (@op Z string) :=
  imap (λ i s, OpInsert (Z.of_nat i) s) strs.

(** The two tables after the loop.  The [Panicked] branches are not taken:
    [New 8 _] returns a table. *)
Definition t1 : Table string Z :=
  match New 8 t1_hash with
  | Ok t => (run fill1 t).2
  | Panicked _ => Build_Table t1_hash 8 []
  end.

Definition t2 : Table Z string :=
  match New 8 t2_hash with
  | Ok t => (run fill2 t).2
  | Panicked _ => Build_Table t2_hash 8 []
  end.

(** The demonstration with its slice of strings as a parameter:
    [for i, s := range l { t1.Insert(s, i); t2.Insert(i, s) }] on the tables
    [New(8, _)], *)
Definition fill1_of (l : list string) : list (@op string Z) :=
  imap (λ i s, OpInsert s (Z.of_nat i)) l.
Definition fill2_of (l : list string) : list (@op Z string) :=
  imap (λ i s, OpInsert (Z.of_nat i) s) l.

Definition t1_of (l : list string) : Table string Z :=
  match New 8 t1_hash with
  | Ok t => (run (fill1_of l) t).2
  | Panicked _ => Build_Table t1_hash 8 []
  end.

Definition t2_of (l : list string) : Table Z string :=
  match New 8 t2_hash with
  | Ok t => (run (fill2_of l) t).2
  | Panicked _ => Build_Table t2_hash 8 []
  end.

(** and the pairs the closing loop logs:
    [for i, s := range append(l, "nope!")
       { v1, ok1 := t1.Get(s); ...; v2, ok2 := t2.Get(i); ... }]. *)
Definition report (l : list string)
    : list (outcome (Z * bool) * outcome (string * bool)) :=
  imap (λ i s, ((Get s (t1_of l)).1, (Get (Z.of_nat i) (t2_of l)).1))
    (l ++ ["nope!"%string]).

(** * Properties *)

Section hashtable_theory.
Context {K V : Type} `{EqDecision K} `{ZeroValue V}.

Local Abbreviation kv := (kv K V).
Local Abbreviation Table := (Table K V).
Local Abbreviation M := (M K V).

Implicit Types (t : Table) (b : list kv) (e : kv) (key : K) (value : V).
Implicit Types (i n : Z) (j : nat) (os : list (@op K V)) (hashFn : K → Z → Z).

(** ** Slice indexing *)

Lemma index_Some {A} (l : list A) i x :
  index l i = Some x ↔ 0 ≤ i ∧ l !! Z.to_nat i = Some x.
Proof. unfold index. case_decide; [tauto|]. split; [done|tauto]. Qed.

Lemma index_is_Some {A} (l : list A) i :
  is_Some (index l i) ↔ 0 ≤ i < Z.of_nat (length l).
Proof.
  unfold index. case_decide.
  - rewrite lookup_lt_is_Some. lia.
  - split; [intros [? ?]; done | lia].
Qed.

Lemma index_None {A} (l : list A) i :
  index l i = None ↔ ¬ (0 ≤ i < Z.of_nat (length l)).
Proof. rewrite <- index_is_Some, eq_None_not_Some. done. Qed.

(** ** The scan of a bucket *)

Lemma range_find_nil key : range_find key ([] : list kv) = None.
Proof. reflexivity. Qed.

Lemma range_find_cons key e b :
  range_find key (e :: b) =
    if decide (key = Key e) then Some (0%nat, e)
    else prod_map S id <$> range_find key b.
Proof. reflexivity. Qed.

Lemma range_find_Some key b j e :
  range_find key b = Some (j, e) →
  b !! j = Some e ∧ Key e = key ∧ ∀ j' e', b !! j' = Some e' → (j' < j)%nat → Key e' ≠ key.
Proof.
  unfold range_find. rewrite list_find_Some. intros (Hj & Hk & Hlt).
  split_and!; [done..|]. intros j' e' Hj' Hlt' Hk'. by eapply Hlt.
Qed.

Lemma range_find_None key b : range_find key b = None ↔ key ∉ keys b.
Proof.
  unfold range_find, keys. rewrite list_find_None, Forall_forall, list_elem_of_fmap.
  split.
  - intros Hall (e & Hk & He). by apply (Hall e).
  - intros Hnot e He Hk. apply Hnot. by exists e.
Qed.

Lemma range_find_is_Some key b : is_Some (range_find key b) ↔ key ∈ keys b.
Proof.
  rewrite <- not_eq_None_Some, range_find_None.
  destruct (decide (key ∈ keys b)); tauto.
Qed.

(** ** The bucket left by [Insert] *)

Lemma upsert_nil key value : upsert key value [] = [Build_kv key value].
Proof. reflexivity. Qed.

Lemma upsert_cons key value e b :
  upsert key value (e :: b) =
    if decide (key = Key e) then Build_kv (Key e) value :: b
    else e :: upsert key value b.
Proof.
  unfold upsert. rewrite range_find_cons. case_decide; [done|].
  destruct (range_find key b) as [[j e']|]; done.
Qed.

Lemma upsert_length key value b :
  length (upsert key value b) =
    if decide (key ∈ keys b) then length b else S (length b).
Proof.
  unfold upsert. destruct (range_find key b) as [[j e]|] eqn:Hf.
  - rewrite decide_True by (apply range_find_is_Some; eauto).
    by rewrite length_insert.
  - rewrite decide_False by (by apply range_find_None).
    rewrite length_app. simpl. lia.
Qed.

Lemma upsert_keys key value b :
  keys (upsert key value b) =
    if decide (key ∈ keys b) then keys b else keys b ++ [key].
Proof.
  unfold upsert. destruct (range_find key b) as [[j e]|] eqn:Hf.
  - rewrite decide_True by (apply range_find_is_Some; eauto).
    apply range_find_Some in Hf as (Hj & _ & _).
    unfold keys. rewrite list_fmap_insert. simpl.
    apply list_insert_id. by rewrite list_lookup_fmap, Hj.
  - rewrite decide_False by (by apply range_find_None).
    unfold keys. by rewrite fmap_app.
Qed.

(** After [Insert(key, value)] the scan for [key] stops at the entry
    [(key, value)], at the position where it stopped before or, if it did
    not, at the former end of the bucket. *)
Lemma range_find_upsert key value b :
  range_find key (upsert key value b) =
    Some (default (length b) (fst <$> range_find key b), Build_kv key value).
Proof.
  induction b as [|e b IH].
  - rewrite upsert_nil, range_find_cons. simpl. by rewrite decide_True.
  - rewrite upsert_cons, (range_find_cons key e b).
    case_decide as Hk.
    + rewrite range_find_cons. simpl. rewrite decide_True by done. by subst.
    + rewrite range_find_cons, decide_False, IH by done.
      destruct (range_find key b) as [[j e']|]; done.
Qed.

(** The scan for any other key is not affected. *)
Lemma range_find_upsert_ne key key' value b :
  key' ≠ key → range_find key' (upsert key value b) = range_find key' b.
Proof.
  intros Hne. induction b as [|e b IH].
  - rewrite upsert_nil, range_find_cons. simpl. by rewrite decide_False.
  - rewrite upsert_cons. case_decide as Hk.
    + rewrite !range_find_cons. simpl. subst key.
      by rewrite !decide_False by done.
    + by rewrite !range_find_cons, IH.
Qed.

(** ** [Get] and [Insert] as functions of the table *)

Lemma Get_eq key t :
  Get key t =
    (match index (table t) (hash t key (m t)) with
     | Some b =>
         match range_find key b with
         | Some (_, e) => Ok (Value e, true)
         | None => Ok (zero, false)
         end
     | None => Panicked (IndexOutOfRange (hash t key (m t)) (length (table t)))
     end, t).
Proof.
  unfold Get, load_entry, load_bucket, call_hash, mbind, M_bind, mret, M_ret.
  destruct (index (table t) (hash t key (m t))) as [b|] eqn:Hb; [|done].
  destruct (range_find key b) as [[j e]|] eqn:Hf; [|done].
  rewrite Hb. apply range_find_Some in Hf as (-> & _ & _). done.
Qed.

Lemma Insert_eq key value t :
  Insert key value t =
    match index (table t) (hash t key (m t)) with
    | Some b =>
        (Ok (), Build_Table (hash t) (m t)
                  (<[Z.to_nat (hash t key (m t)) := upsert key value b]> (table t)))
    | None =>
        (Panicked (IndexOutOfRange (hash t key (m t)) (length (table t))), t)
    end.
Proof.
  unfold Insert, store_value, store_bucket, load_bucket, call_hash, upsert,
    mbind, M_bind, mret, M_ret.
  destruct (index (table t) (hash t key (m t))) as [b|] eqn:Hb; [|done].
  destruct (range_find key b) as [[j e]|] eqn:Hf; rewrite Hb; cbn beta.
  - apply range_find_Some in Hf as (-> & _ & _). by rewrite Hb.
  - by rewrite Hb.
Qed.

(** The table an operation leaves behind. *)
Lemma Get_state key t : (Get key t).2 = t.
Proof. by rewrite Get_eq. Qed.

Lemma Insert_hash key value t : hash (Insert key value t).2 = hash t.
Proof. rewrite Insert_eq. by destruct (index _ _). Qed.

Lemma Insert_m key value t : m (Insert key value t).2 = m t.
Proof. rewrite Insert_eq. by destruct (index _ _). Qed.

Lemma Insert_table key value t :
  table (Insert key value t).2 =
    match index (table t) (hash t key (m t)) with
    | Some b => <[Z.to_nat (hash t key (m t)) := upsert key value b]> (table t)
    | None => table t
    end.
Proof. rewrite Insert_eq. by destruct (index _ _). Qed.

Lemma Insert_table_length key value t :
  length (table (Insert key value t).2) = length (table t).
Proof.
  rewrite Insert_table. destruct (index _ _); [|done]. by rewrite length_insert.
Qed.

(** Buckets other than the target bucket are left as they are. *)
Lemma Insert_lookup_ne key value t (i' : nat) :
  Z.of_nat i' ≠ hash t key (m t) →
  table (Insert key value t).2 !! i' = table t !! i'.
Proof.
  intros Hne. rewrite Insert_table.
  destruct (index _ _) as [b|] eqn:Hb; [|done].
  apply index_Some in Hb as [Hi _]. apply list_lookup_insert_ne. lia.
Qed.

(** The target bucket is replaced by its [upsert]. *)
Lemma Insert_lookup_eq key value t (i' : nat) b :
  Z.of_nat i' = hash t key (m t) →
  table t !! i' = Some b →
  table (Insert key value t).2 !! i' = Some (upsert key value b).
Proof.
  intros Hi Hb. rewrite Insert_table, <- Hi.
  assert (index (table t) (Z.of_nat i') = Some b) as ->.
  { apply index_Some. rewrite Nat2Z.id. split; [lia|done]. }
  rewrite Nat2Z.id. apply list_lookup_insert_eq. by eapply lookup_lt_Some.
Qed.

Lemma Insert_well_formed key value t :
  well_formed t → well_formed (Insert key value t).2.
Proof.
  unfold well_formed. by rewrite Insert_m, Insert_table_length.
Qed.

Lemma Insert_hash_in_range key value t :
  hash_in_range t → hash_in_range (Insert key value t).2.
Proof. unfold hash_in_range. by rewrite Insert_m, Insert_hash. Qed.

(** With [m] buckets and an in-range hash function the target bucket exists. *)
Lemma target_bucket t key :
  well_formed t → hash_in_range t →
  ∃ b, index (table t) (hash t key (m t)) = Some b.
Proof.
  intros [Hm Hlen] Hr. apply index_is_Some. rewrite Hlen.
  specialize (Hr key). lia.
Qed.

Lemma Insert_ok key value t :
  well_formed t → hash_in_range t → (Insert key value t).1 = Ok ().
Proof.
  intros Hwf Hr. destruct (target_bucket t key Hwf Hr) as [b Hb].
  by rewrite Insert_eq, Hb.
Qed.

Lemma Get_ok key t :
  well_formed t → hash_in_range t → ∃ r, Get key t = (Ok r, t).
Proof.
  intros Hwf Hr. destruct (target_bucket t key Hwf Hr) as [b Hb].
  rewrite Get_eq, Hb. destruct (range_find key b) as [[j e]|]; eauto.
Qed.

Lemma index_insert {A} (l : list A) i i' x :
  0 ≤ i → 0 ≤ i' →
  index (<[Z.to_nat i := x]> l) i' =
    if decide (i' = i) then (λ _, x) <$> index l i' else index l i'.
Proof.
  intros Hi Hi'. unfold index. rewrite !(decide_True (P := 0 ≤ i')) by done.
  case_decide as Hd.
  - subst i'. destruct (l !! Z.to_nat i) eqn:Hl; simpl.
    + apply list_lookup_insert_eq. by eapply lookup_lt_Some.
    + rewrite list_insert_ge; [done|]. by apply lookup_ge_None.
  - apply list_lookup_insert_ne. lia.
Qed.

(** [Insert(key, _)] does not change what [Get] returns for another key. *)
Lemma Get_Insert_ne key key' value t :
  key' ≠ key → (Get key' (Insert key value t).2).1 = (Get key' t).1.
Proof.
  intros Hne. rewrite !Get_eq, Insert_hash, Insert_m, Insert_table_length,
    Insert_table. simpl.
  destruct (index (table t) (hash t key (m t))) as [b|] eqn:Hb; [|done].
  destruct (decide (0 ≤ hash t key' (m t))) as [Hpos|Hneg].
  - rewrite index_insert by (by apply index_Some in Hb as [? _]).
    case_decide as Hd; [|done].
    rewrite Hd, Hb. simpl. by rewrite range_find_upsert_ne.
  - unfold index. by rewrite !decide_False by done.
Qed.

(** ** Sequences of operations *)

Lemma exec_state o t :
  (exec o t).2 =
    match o with
    | OpGet _ => t
    | OpInsert key value => (Insert key value t).2
    end.
Proof.
  destruct o as [key|key value]; [|done].
  unfold exec, mbind, M_bind. rewrite Get_eq.
  destruct (index _ _) as [b|]; [|done].
  by destruct (range_find key b) as [[j e]|].
Qed.

Lemma run_cons o os t :
  run (o :: os) t =
    match (exec o t).1 with
    | Ok _ => run os (exec o t).2
    | Panicked p => (Panicked p, (exec o t).2)
    end.
Proof.
  simpl. unfold mbind, M_bind at 1.
  by destruct (exec o t) as [[[]|p] t'].
Qed.

(** A property of tables that [Insert] preserves holds of the table any
    sequence of operations leaves, whether the sequence ran to its end or
    stopped at a panic. *)
Lemma run_preserves (P : Table → Prop) os t :
  (∀ t' key value, P t' → P (Insert key value t').2) →
  P t → P (run os t).2.
Proof.
  intros Hstep. revert t. induction os as [|o os IH]; intros t Ht; [done|].
  rewrite run_cons.
  assert (P (exec o t).2) as Ht'.
  { rewrite exec_state. destruct o; [done|]. by apply Hstep. }
  destruct (exec o t).1; [by apply IH|done].
Qed.

Lemma run_hash os t : hash (run os t).2 = hash t.
Proof.
  apply (run_preserves (λ t', hash t' = hash t)); [|done].
  intros t' key value. by rewrite Insert_hash.
Qed.

Lemma run_m os t : m (run os t).2 = m t.
Proof.
  apply (run_preserves (λ t', m t' = m t)); [|done].
  intros t' key value. by rewrite Insert_m.
Qed.

Lemma Insert_table_length_run os t :
  length (table (run os t).2) = length (table t).
Proof.
  apply (run_preserves (λ t', length (table t') = length (table t))); [|done].
  intros t' key value. by rewrite Insert_table_length.
Qed.

Lemma run_well_formed os t : well_formed t → well_formed (run os t).2.
Proof. apply run_preserves. intros t' key value. apply Insert_well_formed. Qed.

Lemma run_hash_in_range os t : hash_in_range t → hash_in_range (run os t).2.
Proof. apply run_preserves. intros t' key value. apply Insert_hash_in_range. Qed.

Lemma run_ok os t :
  well_formed t → hash_in_range t → (run os t).1 = Ok ().
Proof.
  revert t. induction os as [|o os IH]; intros t Hwf Hr; [done|].
  rewrite run_cons.
  assert ((exec o t).1 = Ok ()) as ->.
  { destruct o as [key|key value]; simpl.
    - unfold mbind, M_bind. by destruct (Get_ok key t Hwf Hr) as [r ->].
    - by apply Insert_ok. }
  apply IH; rewrite exec_state; destruct o;
    auto using Insert_well_formed, Insert_hash_in_range.
Qed.

(** Operations that do not insert [key] do not change what [Get(key)]
    returns. *)
Lemma Get_run_ne key os t :
  key ∉ inserted_keys os → (Get key (run os t).2).1 = (Get key t).1.
Proof.
  revert t. induction os as [|o os IH]; intros t Hk; [done|].
  rewrite run_cons.
  assert ((Get key (exec o t).2).1 = (Get key t).1) as Ho.
  { rewrite exec_state. destruct o as [|key' value]; [done|].
    apply Get_Insert_ne. intros ->. apply Hk. simpl. left. }
  destruct (exec o t).1; [|done].
  rewrite IH; [done|]. destruct o; simpl in Hk; [done|].
  by apply not_elem_of_cons in Hk as [_ ?].
Qed.

(** ** Construction *)

Lemma New_eq n hashFn :
  0 ≤ n →
  New (V := V) n hashFn = Ok (Build_Table hashFn n (replicate (Z.to_nat n) [])).
Proof. intros Hn. unfold New. by rewrite decide_False by lia. Qed.

Lemma New_well_formed n hashFn t : New n hashFn = Ok t → well_formed t.
Proof.
  unfold New. case_decide; [done|]. intros [= <-]. split; simpl; [lia|].
  by rewrite length_replicate.
Qed.

Lemma built_well_formed n hashFn os t : built n hashFn os t → well_formed t.
Proof.
  intros (t0 & Hnew & Hrun). replace t with (run os t0).2 by by rewrite Hrun.
  apply run_well_formed. by eapply New_well_formed.
Qed.

Lemma built_hash_m n hashFn os t :
  built n hashFn os t → hash t = hashFn ∧ m t = n.
Proof.
  intros (t0 & Hnew & Hrun). replace t with (run os t0).2 by by rewrite Hrun.
  rewrite run_hash, run_m. revert Hnew. unfold New.
  case_decide; [done|]. by intros [= <-].
Qed.

Lemma reachable_well_formed t : reachable t → well_formed t.
Proof. intros (n & hashFn & os & Hb). by eapply built_well_formed. Qed.

(** ** The specification's properties

    Several of them are stated for a [well_formed] table, one whose bucket
    array has [m] buckets.  That is every table a program can hold: [New]
    returns such a table and the operations keep it so
    ([reachable_well_formed]). *)

(** C5.  For every bucket count [n > 0] and every hash function, [New]
    returns a table that stores the hash function and the bucket count and
    has exactly [n] buckets, every one of them empty. *)
Theorem New_empty_buckets n hashFn :
  0 < n →
  ∃ t, New (V := V) n hashFn = Ok t ∧
       hash t = hashFn ∧ m t = n ∧
       Z.of_nat (length (table t)) = n ∧
       ∀ (i' : nat) b, table t !! i' = Some b → b = [].
Proof.
  intros Hn. eexists. split; [apply New_eq; lia|]. simpl.
  rewrite length_replicate. split_and!; [done|done|lia|].
  intros i' b Hb. by apply lookup_replicate in Hb as [-> _].
Qed.

(** C7.  In a table with [m] buckets: if the hash function is in range,
    [Get] and [Insert] return without a panic, so every index they use is
    in bounds; and neither checks the hash function's output, for on a key
    whose hash is out of range both stop at the out-of-range index of the
    bucket array, leaving the table as it was. *)
Theorem indexing_in_bounds t key value :
  well_formed t →
  (hash_in_range t →
     (∃ r, Get key t = (Ok r, t)) ∧ (∃ t', Insert key value t = (Ok (), t'))) ∧
  (¬ (0 ≤ hash t key (m t) < m t) →
     Get key t =
       (Panicked (IndexOutOfRange (hash t key (m t)) (length (table t))), t) ∧
     Insert key value t =
       (Panicked (IndexOutOfRange (hash t key (m t)) (length (table t))), t)).
Proof.
  intros Hwf. split.
  - intros Hr. split; [by apply Get_ok|].
    exists (Insert key value t).2. rewrite <- (Insert_ok key value t Hwf Hr).
    by destruct (Insert key value t).
  - intros Hout. destruct Hwf as [Hm Hlen].
    assert (index (table t) (hash t key (m t)) = None) as Hb.
    { apply index_None. rewrite Hlen. lia. }
    by rewrite Get_eq, Insert_eq, Hb.
Qed.

(** C8.  [Get] leaves the table as it is.  [Insert(key, value)] leaves the
    stored hash function, the bucket count, the number of buckets and every
    bucket other than the one at index [hash(key, m)] as they are. *)
Theorem operations_frame t key value :
  (Get key t).2 = t ∧
  hash (Insert key value t).2 = hash t ∧
  m (Insert key value t).2 = m t ∧
  length (table (Insert key value t).2) = length (table t) ∧
  ∀ i' : nat, Z.of_nat i' ≠ hash t key (m t) →
    table (Insert key value t).2 !! i' = table t !! i'.
Proof.
  split_and!.
  - apply Get_state.
  - apply Insert_hash.
  - apply Insert_m.
  - apply Insert_table_length.
  - intros i'. apply Insert_lookup_ne.
Qed.

(** [Get] after [Insert] of the same key. *)
Lemma Get_Insert_eq key value t :
  well_formed t → hash_in_range t →
  Get key (Insert key value t).2 = (Ok (value, true), (Insert key value t).2).
Proof.
  intros Hwf Hr. destruct (target_bucket t key Hwf Hr) as [b Hb].
  rewrite Get_eq, Insert_hash, Insert_m, Insert_table, Hb.
  pose proof Hb as [Hpos _]%index_Some.
  rewrite index_insert, decide_True, Hb by done. simpl.
  by rewrite range_find_upsert.
Qed.

(** C1.  In a table with [m] buckets and an in-range hash function,
    [Insert(key, value)] returns and [Get(key)] then returns
    [(value, true)]; and [Get] of any other key, in particular of one that
    hashes to the same bucket, returns what it returned before. *)
Theorem Get_after_Insert t key value :
  well_formed t → hash_in_range t →
  ∃ t', Insert key value t = (Ok (), t') ∧
        Get key t' = (Ok (value, true), t') ∧
        ∀ key', key' ≠ key → Get key' t' = ((Get key' t).1, t').
Proof.
  intros Hwf Hr. exists (Insert key value t).2. split_and!.
  - rewrite <- (Insert_ok key value t Hwf Hr). by destruct (Insert key value t).
  - by apply Get_Insert_eq.
  - intros key' Hne. rewrite <- (Get_Insert_ne key key' value t Hne).
    rewrite <- (Get_state key' (Insert key value t).2) at 3.
    by destruct (Get key' _).
Qed.

(** C3.  Inserting [key] with [v1] and then with [v2]: [Get(key)] returns
    [(v2, true)], and the second [Insert] changes the target bucket only at
    the position [j] where the entry for [key] stood after the first, from
    [(key, v1)] to [(key, v2)]; the bucket keeps its length. *)
Theorem Insert_twice t key v1 v2 :
  well_formed t → hash_in_range t →
  ∃ t1 t2 (i' : nat) b1 b2 j,
    Insert key v1 t = (Ok (), t1) ∧ Insert key v2 t1 = (Ok (), t2) ∧
    Get key t2 = (Ok (v2, true), t2) ∧
    Z.of_nat i' = hash t key (m t) ∧
    table t1 !! i' = Some b1 ∧ table t2 !! i' = Some b2 ∧
    length b2 = length b1 ∧
    b1 !! j = Some (Build_kv key v1) ∧ b2 !! j = Some (Build_kv key v2) ∧
    ∀ j', j' ≠ j → b2 !! j' = b1 !! j'.
Proof.
  intros Hwf Hr.
  set (t1 := (Insert key v1 t).2).
  assert (well_formed t1) as Hwf1 by by apply Insert_well_formed.
  assert (hash_in_range t1) as Hr1 by by apply Insert_hash_in_range.
  destruct (target_bucket t key Hwf Hr) as [b Hb].
  pose proof Hb as [Hpos Hb']%index_Some.
  set (i' := Z.to_nat (hash t key (m t))) in *.
  assert (Z.of_nat i' = hash t key (m t)) as Hi' by lia.
  assert (table t1 !! i' = Some (upsert key v1 b)) as Hb1
    by by apply Insert_lookup_eq.
  assert (Z.of_nat i' = hash t1 key (m t1)) as Hi1.
  { unfold t1. by rewrite Insert_hash, Insert_m. }
  pose proof (range_find_upsert key v1 b) as Hf.
  set (j := default (length b) (fst <$> range_find key b)) in *.
  pose proof Hf as (Hj & _ & _)%range_find_Some.
  exists t1, (Insert key v2 t1).2, i', (upsert key v1 b),
    (<[j := Build_kv key v2]> (upsert key v1 b)), j.
  split_and!; try done.
  - unfold t1. rewrite <- (Insert_ok key v1 t Hwf Hr).
    by destruct (Insert key v1 t).
  - rewrite <- (Insert_ok key v2 t1 Hwf1 Hr1). by destruct (Insert key v2 t1).
  - by apply Get_Insert_eq.
  - rewrite (Insert_lookup_eq key v2 t1 i' _ Hi1 Hb1).
    unfold upsert at 1. by rewrite Hf.
  - by rewrite length_insert.
  - apply list_lookup_insert_eq. by eapply lookup_lt_Some.
  - intros j' Hne. by apply list_lookup_insert_ne.
Qed.

(** ** Presence of a key *)

Lemma entry_at_Some t (i' j : nat) e :
  entry_at t i' j = Some e ↔ ∃ b, table t !! i' = Some b ∧ b !! j = Some e.
Proof.
  unfold entry_at. destruct (table t !! i') as [b|]; simpl.
  - split; [by exists b|]. by intros (b' & [= <-] & ?).
  - split; [done|]. by intros (b' & ? & ?).
Qed.

Lemma present_iff t key :
  present t key ↔ ∃ (i' : nat) b, table t !! i' = Some b ∧ key ∈ keys b.
Proof.
  unfold present, keys. split.
  - intros (i' & j & e & (b & Hb & Hj)%entry_at_Some & <-).
    exists i', b. split; [done|].
    apply list_elem_of_fmap_2. by eapply list_elem_of_lookup_2.
  - intros (i' & b & Hb & (e & -> & (j & Hj)%list_elem_of_lookup_1)%list_elem_of_fmap).
    exists i', j, e. split; [|done]. apply entry_at_Some. by exists b.
Qed.

Lemma New_not_present n hashFn t key : New n hashFn = Ok t → ¬ present t key.
Proof.
  unfold New. case_decide; [done|]. intros [= <-].
  rewrite present_iff. simpl. intros (i' & b & Hb & Hk).
  apply lookup_replicate in Hb as [-> _]. by apply not_elem_of_nil in Hk.
Qed.

Lemma present_Insert key key' value t :
  present (Insert key value t).2 key' → key' = key ∨ present t key'.
Proof.
  rewrite !present_iff, Insert_table. intros (i' & b & Hb & Hk).
  destruct (index (table t) (hash t key (m t))) as [b0|] eqn:Hb0; [|eauto].
  apply index_Some in Hb0 as [Hpos Hb0].
  destruct (decide (i' = Z.to_nat (hash t key (m t)))) as [->|Hne].
  - rewrite list_lookup_insert_eq in Hb by by eapply lookup_lt_Some.
    injection Hb as <-. rewrite upsert_keys in Hk. case_decide; [by eauto|].
    apply elem_of_app in Hk as [Hk|Hk%list_elem_of_singleton]; eauto.
  - rewrite list_lookup_insert_ne in Hb by done. eauto.
Qed.

Lemma present_run key os t :
  present (run os t).2 key → present t key ∨ key ∈ inserted_keys os.
Proof.
  revert t. induction os as [|o os IH]; intros t; [by left|].
  rewrite run_cons.
  assert (present (exec o t).2 key → present t key ∨ key ∈ inserted_keys (o :: os))
    as Ho.
  { rewrite exec_state. destruct o as [|key' value]; [by left|].
    intros [->|?]%present_Insert; [right; simpl; left|by left]. }
  destruct (exec o t).1; [|done].
  intros [Hp|Hk]%IH; [by apply Ho|]. right.
  destruct o; simpl; [done|by right].
Qed.

(** [Get] of a key that no bucket holds. *)
Lemma Get_absent t key :
  well_formed t → hash_in_range t → ¬ present t key →
  Get key t = (Ok (zero, false), t).
Proof.
  intros Hwf Hr Hnp. destruct (target_bucket t key Hwf Hr) as [b Hb].
  rewrite Get_eq, Hb.
  assert (range_find key b = None) as ->; [|done].
  apply range_find_None. intros Hk. apply Hnp, present_iff.
  apply index_Some in Hb as [_ Hb]. eauto.
Qed.

(** C2.  In a table with [m] buckets and an in-range hash function, [Get]
    of a key that no bucket holds returns the zero value and [false],
    without a panic; in particular so does [Get] of a key that none of the
    operations applied since [New] inserted. *)
Theorem Get_missing_key :
  (∀ t key, well_formed t → hash_in_range t → ¬ present t key →
     Get key t = (Ok (zero, false), t)) ∧
  (∀ n hashFn os t key, built n hashFn os t → hash_in_range t →
     key ∉ inserted_keys os → Get key t = (Ok (zero, false), t)).
Proof.
  split; [apply Get_absent|].
  intros n hashFn os t key Hb Hr Hk.
  apply Get_absent; [by eapply built_well_formed|done|].
  destruct Hb as (t0 & Hnew & Hrun). intros Hp.
  replace t with (run os t0).2 in Hp by by rewrite Hrun.
  apply present_run in Hp as [Hp|Hp]; [|done].
  by eapply New_not_present.
Qed.

(** C10.  After [Insert] of [key] with the zero value, followed by any
    operations that do not insert [key] again, [Get(key)] returns the zero
    value and [true], while [Get] of a key that no bucket holds returns the
    zero value and [false]: only the flag tells the two apart. *)
Theorem Get_zero_value_present t key os :
  well_formed t → hash_in_range t → key ∉ inserted_keys os →
  ∃ t', run os (Insert key zero t).2 = (Ok (), t') ∧
        Get key t' = (Ok (zero, true), t') ∧
        ∀ key', ¬ present t' key' → Get key' t' = (Ok (zero, false), t').
Proof.
  intros Hwf Hr Hk.
  set (t0 := (Insert key zero t).2).
  assert (well_formed t0) as Hwf0 by by apply Insert_well_formed.
  assert (hash_in_range t0) as Hr0 by by apply Insert_hash_in_range.
  exists (run os t0).2. split_and!.
  - rewrite <- (run_ok os t0 Hwf0 Hr0). by destruct (run os t0).
  - pose proof (Get_run_ne key os t0 Hk) as Hg.
    unfold t0 in Hg at 2. rewrite Get_Insert_eq in Hg by done.
    rewrite <- (Get_state key (run os t0).2) at 2.
    destruct (Get key (run os t0).2). simpl in *. by subst.
  - intros key'. apply Get_absent.
    + by apply run_well_formed.
    + by apply run_hash_in_range.
Qed.

(** ** Bucket lengths *)

Lemma bucket_len_Insert_ne key value t (i' : nat) :
  Z.of_nat i' ≠ hash t key (m t) →
  bucket_len (Insert key value t).2 i' = bucket_len t i'.
Proof. intros Hne. unfold bucket_len. by rewrite Insert_lookup_ne. Qed.

Lemma bucket_len_Insert_eq key value t (i' : nat) b :
  Z.of_nat i' = hash t key (m t) → table t !! i' = Some b →
  bucket_len (Insert key value t).2 i' =
    if decide (key ∈ keys b) then length b else S (length b).
Proof.
  intros Hi Hb. unfold bucket_len.
  rewrite (Insert_lookup_eq key value t i' b Hi Hb). simpl.
  apply upsert_length.
Qed.

Lemma bucket_len_Insert_le key value t (i' : nat) :
  (bucket_len t i' ≤ bucket_len (Insert key value t).2 i')%nat.
Proof.
  destruct (decide (Z.of_nat i' = hash t key (m t))) as [Hi|Hne].
  - destruct (table t !! i') as [b|] eqn:Hb.
    + rewrite (bucket_len_Insert_eq key value t i' b Hi Hb).
      unfold bucket_len. rewrite Hb. simpl. case_decide; lia.
    + unfold bucket_len at 1. rewrite Hb. simpl. lia.
  - by rewrite bucket_len_Insert_ne.
Qed.

(** C9.  No operation shortens a bucket.  [Get] changes no bucket length;
    [Insert(key, _)] changes none but that of its target bucket, which
    keeps its length if it holds [key] and grows by exactly one entry if it
    does not; so after any sequence of operations every bucket is at least
    as long as before. *)
Theorem buckets_only_grow :
  (∀ t key (i' : nat), bucket_len (Get key t).2 i' = bucket_len t i') ∧
  (∀ t key value (i' : nat), Z.of_nat i' ≠ hash t key (m t) →
     bucket_len (Insert key value t).2 i' = bucket_len t i') ∧
  (∀ t key value (i' : nat) b,
     Z.of_nat i' = hash t key (m t) → table t !! i' = Some b →
     bucket_len (Insert key value t).2 i' =
       if decide (key ∈ keys b) then length b else S (length b)) ∧
  (∀ os t (i' : nat), (bucket_len t i' ≤ bucket_len (run os t).2 i')%nat).
Proof.
  split_and!.
  - intros t key i'. by rewrite Get_state.
  - intros t key value i'. apply bucket_len_Insert_ne.
  - intros t key value i' b. apply bucket_len_Insert_eq.
  - intros os t i'.
    apply (run_preserves (λ t', (bucket_len t i' ≤ bucket_len t' i')%nat)); [|done].
    intros t' key value Hle. etrans; [done|]. apply bucket_len_Insert_le.
Qed.

(** ** The data-model invariant *)

Lemma buckets_ok_New n hashFn t : New n hashFn = Ok t → buckets_ok t.
Proof.
  unfold New. case_decide; [done|]. intros [= <-] i' b Hb. simpl in *.
  apply lookup_replicate in Hb as [-> _]. split; [constructor|].
  by intros key Hk%not_elem_of_nil.
Qed.

Lemma buckets_ok_Insert key value t :
  buckets_ok t → buckets_ok (Insert key value t).2.
Proof.
  intros Hok i' b. rewrite Insert_hash, Insert_m.
  destruct (decide (Z.of_nat i' = hash t key (m t))) as [Hi|Hne].
  - destruct (table t !! i') as [b0|] eqn:Hb0.
    + rewrite (Insert_lookup_eq key value t i' b0 Hi Hb0). intros [= <-].
      destruct (Hok i' b0 Hb0) as [Hnd Hh]. rewrite upsert_keys.
      case_decide as Hin; [done|]. split.
      * apply NoDup_app. split_and!; [done| |apply NoDup_singleton].
        intros k Hk ->%list_elem_of_singleton. done.
      * intros k [Hk| ->%list_elem_of_singleton]%elem_of_app; [by apply Hh|done].
    + intros Hb. apply lookup_lt_Some in Hb. apply lookup_ge_None in Hb0.
      rewrite Insert_table_length in Hb. lia.
  - rewrite Insert_lookup_ne by done. apply Hok.
Qed.

Lemma buckets_ok_built n hashFn os t : built n hashFn os t → buckets_ok t.
Proof.
  intros (t0 & Hnew & Hrun). replace t with (run os t0).2 by by rewrite Hrun.
  apply run_preserves; [|by eapply buckets_ok_New].
  intros t' key value. apply buckets_ok_Insert.
Qed.

(** C4.  In every table that a sequence of [Insert] and [Get] operations
    leaves when applied to a freshly constructed table with an in-range
    hash function, a key that occurs in the table occurs at exactly one
    position [(i, j)] (bucket [i], place [j]), and [i] is
    [hash(key, m)]. *)
Theorem one_entry_per_key n hashFn os t key :
  built n hashFn os t → hash_in_range t → present t key →
  ∃ (i' j : nat) e,
    entry_at t i' j = Some e ∧ Key e = key ∧
    Z.of_nat i' = hash t key (m t) ∧
    ∀ (i2 j2 : nat) e2,
      entry_at t i2 j2 = Some e2 → Key e2 = key → i2 = i' ∧ j2 = j.
Proof.
  intros Hb%buckets_ok_built _ (i' & j & e & He & Hk).
  exists i', j, e. pose proof He as (b & Hbi & Hj)%entry_at_Some.
  destruct (Hb i' b Hbi) as [Hnd Hh].
  assert (keys b !! j = Some key) as Hkj.
  { unfold keys. by rewrite list_lookup_fmap, Hj, <- Hk. }
  split_and!; [done|done|..].
  - symmetry. apply Hh. by eapply list_elem_of_lookup_2.
  - intros i2 j2 e2 (b2 & Hbi2 & Hj2)%entry_at_Some Hk2.
    destruct (Hb i2 b2 Hbi2) as [_ Hh2].
    assert (keys b2 !! j2 = Some key) as Hkj2.
    { unfold keys. by rewrite list_lookup_fmap, Hj2, <- Hk2. }
    assert (i2 = i') as ->.
    { apply list_elem_of_lookup_2 in Hkj, Hkj2.
      apply Hh in Hkj. apply Hh2 in Hkj2. lia. }
    split; [done|]. replace b2 with b in * by congruence.
    by eapply NoDup_lookup.
Qed.

(** ** The order of a bucket *)

Lemma first_occurrences_cons (k : K) ks :
  first_occurrences (k :: ks) = k :: filter (λ k', k' ≠ k) (first_occurrences ks).
Proof. reflexivity. Qed.

(** The keys of bucket [i'] after a sequence of operations: those it held
    before, then the new keys that hash to [i'], in the order of their
    first insertion. *)
Lemma run_keys os t (i' : nat) b0 :
  (run os t).1 = Ok () → table t !! i' = Some b0 →
  ∃ b, table (run os t).2 !! i' = Some b ∧
       keys b = keys b0 ++
         filter (λ k, hash t k (m t) = Z.of_nat i' ∧ k ∉ keys b0)
           (first_occurrences (inserted_keys os)).
Proof.
  revert t b0. induction os as [|o os IH]; intros t b0 Hok Hb0.
  { exists b0. split; [done|]. simpl. by rewrite filter_nil, app_nil_r. }
  rewrite run_cons in Hok |- *.
  destruct (exec o t).1 as [[]|p] eqn:Ho; [|done].
  rewrite exec_state in Hok |- *. destruct o as [key|key value]; simpl.
  { by apply IH. }
  set (t' := (Insert key value t).2) in *.
  set (ks := first_occurrences (inserted_keys os)).
  destruct (decide (Z.of_nat i' = hash t key (m t))) as [Hi|Hne].
  - pose proof (Insert_lookup_eq key value t i' b0 Hi Hb0) as Hb'.
    destruct (IH t' _ Hok Hb') as (b & Hb & Hkeys). exists b. split; [done|].
    rewrite Hkeys. unfold t'. rewrite Insert_hash, Insert_m, upsert_keys.
    case_decide as Hin.
    + f_equal. rewrite filter_cons_False by (intros [_ ?]; done).
      rewrite list_filter_filter. apply list_filter_iff.
      intros k. split; [|tauto]. intros [Hh Hk]. split_and!; [done..|].
      by intros ->.
    + rewrite <- app_assoc. f_equal. simpl.
      rewrite filter_cons_True by done. f_equal.
      rewrite list_filter_filter. apply list_filter_iff.
      intros k. rewrite not_elem_of_app, list_elem_of_singleton. tauto.
  - assert (table t' !! i' = Some b0) as Hb'.
    { unfold t'. by rewrite Insert_lookup_ne. }
    destruct (IH t' _ Hok Hb') as (b & Hb & Hkeys). exists b. split; [done|].
    rewrite Hkeys. unfold t'. rewrite Insert_hash, Insert_m. f_equal.
    rewrite filter_cons_False by (intros [? _]; done).
    rewrite list_filter_filter. apply list_filter_iff.
    intros k. split; [|tauto]. intros [Hh Hk]. split_and!; [done..|].
    intros ->. done.
Qed.

(** C6.  In a table with [m] buckets and an in-range hash function the
    target bucket of [Insert(key, value)] exists, and if it does not hold
    [key] it is left with the entry [(key, value)] added after its last
    entry.  Consequently the keys of bucket [i'] of a table built from [New]
    are the inserted keys that hash to [i'], in the order in which they
    were first inserted. *)
Theorem Insert_appends_in_order :
  (∀ t key value, well_formed t → hash_in_range t →
     ∃ (i' : nat) b,
       Z.of_nat i' = hash t key (m t) ∧ table t !! i' = Some b ∧
       (key ∉ keys b →
        table (Insert key value t).2 !! i' = Some (b ++ [Build_kv key value]))) ∧
  (∀ n hashFn os t (i' : nat) b,
     built n hashFn os t → table t !! i' = Some b →
     keys b = filter (λ k, hashFn k n = Z.of_nat i')
                (first_occurrences (inserted_keys os))).
Proof.
  split.
  - intros t key value Hwf Hr.
    destruct (target_bucket t key Hwf Hr) as [b [Hpos Hb]%index_Some].
    exists (Z.to_nat (hash t key (m t))), b. split_and!; [lia|done|].
    intros Hk. rewrite (Insert_lookup_eq key value t _ b) by (done || lia).
    unfold upsert. by apply range_find_None in Hk as ->.
  - intros n hashFn os t i' b (t0 & Hnew & Hrun) Hb.
    assert (t = (run os t0).2) as Ht by by rewrite Hrun.
    assert (hash t0 = hashFn ∧ m t0 = n ∧ table t0 = replicate (Z.to_nat n) [])
      as (Hh & Hm & Htab).
    { revert Hnew. unfold New. case_decide; [done|]. by intros [= <-]. }
    assert (table t0 !! i' = Some []) as Hb0.
    { apply lookup_lt_Some in Hb.
      rewrite Ht, Insert_table_length_run, Htab, length_replicate in Hb.
      rewrite Htab. by apply lookup_replicate_2. }
    destruct (run_keys os t0 i' [] ltac:(by rewrite Hrun) Hb0)
      as (b' & Hb' & Hkeys).
    rewrite <- Ht, Hb in Hb'. injection Hb' as <-.
    rewrite Hkeys, Hh, Hm. simpl. apply list_filter_iff.
    intros k. split; [tauto|]. intros Hk. split; [done|]. apply not_elem_of_nil.
Qed.

End hashtable_theory.

(** * The demonstration tables *)

Section demonstration.

Lemma bytes_nonneg (s : string) : Forall (λ c, 0 ≤ c) (bytes s).
Proof. unfold bytes. apply Forall_fmap, Forall_true. intros c. simpl. lia. Qed.

Lemma Sum32_nonneg (data : list Z) : Forall (λ c, 0 ≤ c) data → 0 ≤ Sum32 data.
Proof.
  unfold Sum32. assert (0 ≤ offset32) as Hh by (unfold offset32; lia).
  revert Hh. generalize offset32 as h.
  induction data as [|c data IH]; intros h Hh Hdata; [done|].
  apply Forall_cons in Hdata as [Hc Hdata]. simpl. apply IH; [|done].
  apply Z.lxor_nonneg. split; [done|]. intros _.
  apply Z.mod_pos_bound. lia.
Qed.

(** The hash function of [t1] honours [0 <= hash(key, m) < m] for every
    positive [m]. *)
Lemma t1_hash_bounds (key : string) (n : Z) : 0 < n → 0 ≤ t1_hash key n < n.
Proof.
  intros Hn. unfold t1_hash. apply Z.rem_bound_pos; [|done].
  apply Sum32_nonneg, bytes_nonneg.
Qed.

Lemma t1_hash_in_range : hash_in_range t1.
Proof. intros key. apply t1_hash_bounds. reflexivity. Qed.

Lemma t1_well_formed : well_formed t1.
Proof. split; [by vm_compute|reflexivity]. Qed.

Lemma t1_built : built 8 t1_hash fill1 t1.
Proof. eexists. split; reflexivity. Qed.

(** The hash function of [t2] does not: Go's [%] takes the sign of the
    dividend. *)
Example t2_hash_negative : t2_hash (-1) 8 = -1.
Proof. reflexivity. Qed.

(** The output listed with the demonstration. *)
Example t1_Get_foo : Get "foo"%string t1 = (Ok (0, true), t1).
Proof. reflexivity. Qed.

Example t1_Get_bar : Get "bar"%string t1 = (Ok (1, true), t1).
Proof. reflexivity. Qed.

Example t1_Get_baz : Get "baz"%string t1 = (Ok (2, true), t1).
Proof. reflexivity. Qed.

Example t1_Get_nope : Get "nope!"%string t1 = (Ok (0, false), t1).
Proof. reflexivity. Qed.

Example t2_Get_0 : Get 0 t2 = (Ok ("foo"%string, true), t2).
Proof. reflexivity. Qed.

Example t2_Get_1 : Get 1 t2 = (Ok ("bar"%string, true), t2).
Proof. reflexivity. Qed.

Example t2_Get_2 : Get 2 t2 = (Ok ("baz"%string, true), t2).
Proof. reflexivity. Qed.

Example t2_Get_3 : Get 3 t2 = (Ok (""%string, false), t2).
Proof. reflexivity. Qed.

(** ["bar"%string] and ["baz"%string] share bucket 0 of [t1]. *)
Example t1_collision :
  t1_hash "bar"%string 8 = 0 ∧ t1_hash "baz"%string 8 = 0 ∧
  table t1 !! 0%nat = Some [Build_kv "bar"%string 1; Build_kv "baz"%string 2].
Proof. split_and!; reflexivity. Qed.

Lemma t1_absent_nope : ¬ present t1 "nope!"%string.
Proof.
  rewrite present_iff. intros (i' & b & Hb & Hk).
  do 8 (destruct i' as [|i']; [injection Hb as <-; revert Hk;
    apply (bool_decide_unpack _); by vm_compute|]).
  done.
Qed.

Lemma fill1_keys_nope : "nope!"%string ∉ inserted_keys fill1.
Proof. apply (bool_decide_unpack _). by vm_compute. Qed.

(** ** The properties at the demonstration tables *)

Lemma New_empty_buckets_witness :
  0 < 8 ∧
  ∃ t, New (V := Z) 8 t1_hash = Ok t ∧
       hash t = t1_hash ∧ m t = 8 ∧
       Z.of_nat (length (table t)) = 8 ∧
       ∀ (i' : nat) b, table t !! i' = Some b → b = [].
Proof.
  split; [reflexivity|]. apply (New_empty_buckets 8 t1_hash). reflexivity.
Defined.

Lemma t2_well_formed : well_formed t2.
Proof. split; [by vm_compute|reflexivity]. Qed.

Lemma indexing_in_bounds_witness :
  (well_formed t1 ∧ hash_in_range t1 ∧
   (∃ r, Get "foo"%string t1 = (Ok r, t1)) ∧
   (∃ t', Insert "foo"%string 5 t1 = (Ok (), t'))) ∧
  (well_formed t2 ∧ ¬ (0 ≤ hash t2 (-1) (m t2) < m t2) ∧
   Get (-1) t2 = (Panicked (IndexOutOfRange (-1) 8), t2) ∧
   Insert (-1) "x"%string t2 = (Panicked (IndexOutOfRange (-1) 8), t2)).
Proof.
  split.
  - split; [exact t1_well_formed|]. split; [exact t1_hash_in_range|].
    exact (proj1 (indexing_in_bounds t1 "foo"%string 5 t1_well_formed)
             t1_hash_in_range).
  - split; [exact t2_well_formed|].
    assert (¬ (0 ≤ hash t2 (-1) (m t2) < m t2)) as Hout.
    { change (¬ (0 ≤ -1 < 8)). lia. }
    split; [exact Hout|].
    exact (proj2 (indexing_in_bounds t2 (-1) "x"%string t2_well_formed) Hout).
Defined.

Lemma operations_frame_witness :
  (Get "baz"%string t1).2 = t1 ∧
  hash (Insert "baz"%string 9 t1).2 = hash t1 ∧
  m (Insert "baz"%string 9 t1).2 = m t1 ∧
  length (table (Insert "baz"%string 9 t1).2) = length (table t1) ∧
  Z.of_nat 3 ≠ hash t1 "baz"%string (m t1) ∧
  table (Insert "baz"%string 9 t1).2 !! 3%nat = table t1 !! 3%nat.
Proof.
  destruct (operations_frame t1 "baz"%string 9) as (Hg & Hh & Hm & Hl & Hb).
  assert (Z.of_nat 3 ≠ hash t1 "baz"%string (m t1)) as Hne by (by vm_compute).
  split_and!; [exact Hg|exact Hh|exact Hm|exact Hl|exact Hne|exact (Hb 3%nat Hne)].
Defined.

Lemma Get_after_Insert_witness :
  well_formed t1 ∧ hash_in_range t1 ∧
  ∃ t', Insert "baz"%string 9 t1 = (Ok (), t') ∧
        Get "baz"%string t' = (Ok (9, true), t') ∧
        ∀ key', key' ≠ "baz"%string → Get key' t' = ((Get key' t1).1, t').
Proof.
  split; [exact t1_well_formed|]. split; [exact t1_hash_in_range|].
  exact (Get_after_Insert t1 "baz"%string 9 t1_well_formed t1_hash_in_range).
Defined.

Lemma Insert_twice_witness :
  well_formed t1 ∧ hash_in_range t1 ∧
  ∃ ta tb (i' : nat) b1 b2 j,
    Insert "qux"%string 5 t1 = (Ok (), ta) ∧
    Insert "qux"%string 6 ta = (Ok (), tb) ∧
    Get "qux"%string tb = (Ok (6, true), tb) ∧
    Z.of_nat i' = hash t1 "qux"%string (m t1) ∧
    table ta !! i' = Some b1 ∧ table tb !! i' = Some b2 ∧
    length b2 = length b1 ∧
    b1 !! j = Some (Build_kv "qux"%string 5) ∧
    b2 !! j = Some (Build_kv "qux"%string 6) ∧
    ∀ j', j' ≠ j → b2 !! j' = b1 !! j'.
Proof.
  split; [exact t1_well_formed|]. split; [exact t1_hash_in_range|].
  exact (Insert_twice t1 "qux"%string 5 6 t1_well_formed t1_hash_in_range).
Defined.

Lemma Get_missing_key_witness :
  (well_formed t1 ∧ hash_in_range t1 ∧ ¬ present t1 "nope!"%string ∧
   Get "nope!"%string t1 = (Ok (0, false), t1)) ∧
  (built 8 t1_hash fill1 t1 ∧ ("nope!"%string ∉ inserted_keys fill1) ∧
   Get "nope!"%string t1 = (Ok (0, false), t1)).
Proof.
  split.
  - split; [exact t1_well_formed|]. split; [exact t1_hash_in_range|].
    split; [exact t1_absent_nope|].
    exact (proj1 Get_missing_key t1 "nope!"%string t1_well_formed
             t1_hash_in_range t1_absent_nope).
  - split; [exact t1_built|]. split; [exact fill1_keys_nope|].
    exact (proj2 Get_missing_key 8 t1_hash fill1 t1 "nope!"%string t1_built
             t1_hash_in_range fill1_keys_nope).
Defined.

Lemma zero_then_others_keys :
  "zed"%string ∉ inserted_keys [OpInsert "foo"%string 4; OpGet "zed"%string].
Proof. apply (bool_decide_unpack _). by vm_compute. Qed.

Lemma Get_zero_value_present_witness :
  well_formed t1 ∧ hash_in_range t1 ∧
  ∃ t', run [OpInsert "foo"%string 4; OpGet "zed"%string]
          (Insert "zed"%string zero t1).2 = (Ok (), t') ∧
        Get "zed"%string t' = (Ok (zero, true), t') ∧
        ∀ key', ¬ present t' key' → Get key' t' = (Ok (zero, false), t').
Proof.
  split; [exact t1_well_formed|]. split; [exact t1_hash_in_range|].
  exact (Get_zero_value_present t1 "zed"%string _ t1_well_formed
           t1_hash_in_range zero_then_others_keys).
Defined.

Lemma buckets_only_grow_witness :
  (Z.of_nat 3 ≠ hash t1 "baz"%string (m t1) ∧
   bucket_len (Insert "baz"%string 9 t1).2 3 = bucket_len t1 3) ∧
  (Z.of_nat 0 = hash t1 "baz"%string (m t1) ∧
   bucket_len (Insert "baz"%string 9 t1).2 0 = 2%nat) ∧
  (Z.of_nat 2 = hash t1 "zed"%string (m t1) ∧
   bucket_len (Insert "zed"%string 9 t1).2 2 = 1%nat) ∧
  (bucket_len t1 0 ≤ bucket_len (run fill1 t1).2 0)%nat.
Proof.
  destruct (@buckets_only_grow string Z _ _) as (_ & Hne & Heq & Hrun).
  split_and!.
  - by vm_compute.
  - apply Hne. by vm_compute.
  - reflexivity.
  - exact (Heq t1 "baz"%string 9 0%nat _ eq_refl eq_refl).
  - reflexivity.
  - exact (Heq t1 "zed"%string 9 2%nat _ eq_refl eq_refl).
  - exact (Hrun fill1 t1 0%nat).
Defined.

Lemma t1_present_baz : present t1 "baz"%string.
Proof. exists 0%nat, 1%nat, (Build_kv "baz"%string 2). by split. Qed.

Lemma one_entry_per_key_witness :
  built 8 t1_hash fill1 t1 ∧ hash_in_range t1 ∧ present t1 "baz"%string ∧
  ∃ (i' j : nat) e,
    entry_at t1 i' j = Some e ∧ Key e = "baz"%string ∧
    Z.of_nat i' = hash t1 "baz"%string (m t1) ∧
    ∀ (i2 j2 : nat) e2,
      entry_at t1 i2 j2 = Some e2 → Key e2 = "baz"%string → i2 = i' ∧ j2 = j.
Proof.
  split; [exact t1_built|]. split; [exact t1_hash_in_range|].
  split; [exact t1_present_baz|].
  exact (one_entry_per_key 8 t1_hash fill1 t1 "baz"%string t1_built
           t1_hash_in_range t1_present_baz).
Defined.

Lemma Insert_appends_in_order_witness :
  (well_formed t1 ∧ hash_in_range t1 ∧
   ∃ (i' : nat) b,
     Z.of_nat i' = hash t1 "zed"%string (m t1) ∧ table t1 !! i' = Some b ∧
     ("zed"%string ∉ keys b →
      table (Insert "zed"%string 7 t1).2 !! i'
        = Some (b ++ [Build_kv "zed"%string 7]))) ∧
  (built 8 t1_hash fill1 t1 ∧
   table t1 !! 0%nat = Some [Build_kv "bar"%string 1; Build_kv "baz"%string 2] ∧
   keys [Build_kv "bar"%string 1; Build_kv "baz"%string 2] =
     filter (λ k, t1_hash k 8 = Z.of_nat 0)
       (first_occurrences (inserted_keys fill1))).
Proof.
  split.
  - split; [exact t1_well_formed|]. split; [exact t1_hash_in_range|].
    exact (proj1 Insert_appends_in_order t1 "zed"%string 7 t1_well_formed
             t1_hash_in_range).
  - split; [exact t1_built|]. split; [reflexivity|].
    exact (proj2 Insert_appends_in_order 8 t1_hash fill1 t1 0%nat _ t1_built
             eq_refl).
Defined.

End demonstration.

(** * Further properties of the package *)

Section hashtable_histories.
Context {K V : Type} `{EqDecision K} `{ZeroValue V}.

Local Abbreviation kv := (kv K V).
Local Abbreviation Table := (Table K V).

Implicit Types (t : Table) (b : list kv) (e : kv) (key : K) (value : V).
Implicit Types (n : Z) (j : nat) (os : list (@op K V)) (hashFn : K → Z → Z).
Implicit Types (p : panic) (acc : option V).

Lemma Table_eq t t' :
  hash t = hash t' → m t = m t' → table t = table t' → t = t'.
Proof. destruct t, t'. simpl. by intros -> -> ->. Qed.

Lemma pair_eta {A B} (x : A * B) : x = (x.1, x.2).
Proof. by destruct x. Qed.

(** ** Where a panic can come from *)

(** In any table whatsoever, [Get] and [Insert] return exactly when the
    bucket index is in bounds. *)
Lemma Get_ok_iff t key :
  (∃ r, (Get key t).1 = Ok r) ↔
  0 ≤ hash t key (m t) < Z.of_nat (length (table t)).
Proof.
  rewrite Get_eq, <- index_is_Some. simpl.
  destruct (index (table t) (hash t key (m t))) as [b|].
  - split; [by eauto|]. intros _. destruct (range_find key b) as [[j e]|]; eauto.
  - split; [by intros [r ?]|by intros [? ?]].
Qed.

Lemma Insert_ok_iff t key value :
  (Insert key value t).1 = Ok () ↔
  0 ≤ hash t key (m t) < Z.of_nat (length (table t)).
Proof.
  rewrite Insert_eq, <- index_is_Some.
  destruct (index (table t) (hash t key (m t))) as [b|]; simpl.
  - split; eauto.
  - split; [done|by intros [? ?]].
Qed.

(** X9.  Whatever the table, the only panic [Get] and [Insert] can raise is
    the out-of-range index of the bucket array, raised when the hash is not
    an index of it; the index into the bucket itself never fails.  An
    [Insert] that panics has written nothing. *)
Theorem panic_is_bucket_index t key value p :
  ((Get key t).1 = Panicked p ∨ (Insert key value t).1 = Panicked p) →
  p = IndexOutOfRange (hash t key (m t)) (length (table t)) ∧
  ¬ (0 ≤ hash t key (m t) < Z.of_nat (length (table t))) ∧
  (Get key t).2 = t ∧ (Insert key value t).2 = t.
Proof.
  rewrite Get_eq, Insert_eq, <- index_None. simpl.
  destruct (index (table t) (hash t key (m t))) as [b|]; simpl.
  - intros [Hg|Hi]; [|done]. by destruct (range_find key b) as [[j e]|].
  - by intros [[= <-]|[= <-]].
Qed.

Lemma exec_ok_iff t o :
  (exec o t).1 = Ok () ↔
  0 ≤ hash t (op_key o) (m t) < Z.of_nat (length (table t)).
Proof.
  destruct o as [key|key value]; simpl; [|apply Insert_ok_iff].
  rewrite <- Get_ok_iff. unfold mbind, M_bind.
  destruct (Get key t) as [[r|p] t']; simpl.
  - split; eauto.
  - split; [done|]. by intros [r ?].
Qed.

Lemma exec_hash_m_length t o :
  hash (exec o t).2 = hash t ∧ m (exec o t).2 = m t ∧
  length (table (exec o t).2) = length (table t).
Proof.
  rewrite exec_state. destruct o as [key|key value]; [done|].
  by rewrite Insert_hash, Insert_m, Insert_table_length.
Qed.

Lemma run_ok_keys os t :
  Forall (λ o, 0 ≤ hash t (op_key o) (m t) < Z.of_nat (length (table t))) os →
  (run os t).1 = Ok ().
Proof.
  revert t. induction os as [|o os IH]; intros t Hall; [done|].
  apply Forall_cons in Hall as [Ho Hall]. rewrite run_cons.
  apply exec_ok_iff in Ho as ->.
  destruct (exec_hash_m_length t o) as (Hh & Hm & Hl).
  apply IH. by rewrite Hh, Hm, Hl.
Qed.

(** X10.  A sequence of operations runs to its end without a panic exactly
    when every key it is called with hashes to an index of the bucket
    array. *)
Theorem run_ok_iff os t :
  (run os t).1 = Ok () ↔
  Forall (λ o, 0 ≤ hash t (op_key o) (m t) < Z.of_nat (length (table t))) os.
Proof.
  revert t. induction os as [|o os IH]; intros t.
  { split; [constructor|done]. }
  rewrite run_cons, Forall_cons, <- exec_ok_iff.
  destruct (exec_hash_m_length t o) as (Hh & Hm & Hl).
  destruct (exec o t).1 as [[]|p] eqn:Ho.
  - rewrite IH, Hh, Hm, Hl. tauto.
  - split; [done|]. by intros [? _].
Qed.

(** ** Histories *)

Lemma Get_Insert_same key value t :
  (Insert key value t).1 = Ok () →
  (Get key (Insert key value t).2).1 = Ok (value, true).
Proof.
  rewrite Get_eq, Insert_hash, Insert_m, Insert_table, Insert_eq.
  destruct (index (table t) (hash t key (m t))) as [b|] eqn:Hb; [|done].
  intros _. pose proof Hb as [Hpos _]%index_Some. simpl.
  rewrite index_insert, decide_True, Hb by done. simpl.
  by rewrite range_find_upsert.
Qed.

Lemma Get_history os t key acc :
  (run os t).1 = Ok () → (Get key t).1 = Ok (found acc) →
  (Get key (run os t).2).1 = Ok (found (last_inserted key os acc)).
Proof.
  revert t acc. induction os as [|o os IH]; intros t acc Hok Hg; [done|].
  rewrite run_cons in Hok |- *.
  destruct (exec o t).1 as [[]|p] eqn:Ho; [|done].
  rewrite exec_state in Hok |- *.
  destruct o as [key'|key' value]; simpl; [by apply IH|].
  apply IH; [done|]. case_decide as Hk.
  - subst key'. by apply Get_Insert_same.
  - by rewrite Get_Insert_ne.
Qed.

Lemma Get_New n hashFn t key :
  New n hashFn = Ok t → 0 ≤ hashFn key n < n →
  (Get key t).1 = Ok (zero, false).
Proof.
  unfold New. case_decide; [done|]. intros [= <-] Hr.
  rewrite Get_eq. simpl.
  assert (index (replicate (Z.to_nat n) ([] : list kv)) (hashFn key n) = Some [])
    as ->; [|done].
  apply index_Some. split; [lia|]. apply lookup_replicate_2. lia.
Qed.

(** X1.  In a table built from [New] by any sequence of operations, [Get]
    of a key whose hash is in range returns the value of the most recent
    [Insert] of that key together with [true], and the zero value with
    [false] if the key was never inserted. *)
Theorem Get_last_inserted n hashFn os t key :
  built n hashFn os t → 0 ≤ hashFn key n < n →
  Get key t = (Ok (found (last_inserted key os None)), t).
Proof.
  intros (t0 & Hnew & Hrun) Hr.
  assert (t = (run os t0).2) as -> by by rewrite Hrun.
  rewrite (pair_eta (Get key _)), Get_state. f_equal.
  apply Get_history; [by rewrite Hrun|]. by eapply Get_New.
Qed.

(** ** Presence *)

Lemma present_Insert_mono key key' value t :
  present t key' → present (Insert key value t).2 key'.
Proof.
  rewrite !present_iff. intros (i' & b & Hb & Hk).
  destruct (decide (Z.of_nat i' = hash t key (m t))) as [Hi|Hne].
  - exists i', (upsert key value b). split; [by apply Insert_lookup_eq|].
    rewrite upsert_keys. case_decide; [done|]. apply elem_of_app. by left.
  - exists i', b. by rewrite Insert_lookup_ne.
Qed.

Lemma present_Insert_same key value t :
  (Insert key value t).1 = Ok () → present (Insert key value t).2 key.
Proof.
  rewrite Insert_ok_iff, <- index_is_Some. intros [b [Hpos Hb]%index_Some].
  apply present_iff. exists (Z.to_nat (hash t key (m t))), (upsert key value b).
  split; [apply Insert_lookup_eq; [lia|done]|].
  rewrite upsert_keys. case_decide; [done|].
  apply elem_of_app. right. by apply list_elem_of_singleton.
Qed.

Lemma inserted_present os t key :
  (run os t).1 = Ok () → key ∈ inserted_keys os → present (run os t).2 key.
Proof.
  revert t. induction os as [|o os IH]; intros t Hok Hk.
  { by apply not_elem_of_nil in Hk. }
  rewrite run_cons in Hok |- *.
  destruct (exec o t).1 as [[]|p] eqn:Ho; [|done].
  rewrite exec_state in Hok |- *.
  destruct o as [key'|key' value]; simpl in *; [by apply IH|].
  apply elem_of_cons in Hk as [->|Hk]; [|by apply IH].
  apply (run_preserves (λ t', present t' key')).
  - intros t' k v. apply present_Insert_mono.
  - by apply present_Insert_same.
Qed.

(** X2.  In a table built from [New] by a sequence of operations the keys
    that occur are exactly the keys that were inserted: no key appears
    uninserted and none is ever lost. *)
Theorem present_iff_inserted n hashFn os t key :
  built n hashFn os t → (present t key ↔ key ∈ inserted_keys os).
Proof.
  intros (t0 & Hnew & Hrun).
  assert (t = (run os t0).2) as -> by by rewrite Hrun.
  split.
  - intros [Hp|Hk]%present_run; [|done].
    by apply (New_not_present n hashFn t0 key) in Hp.
  - apply inserted_present. by rewrite Hrun.
Qed.

(** ** Composing insertions *)

Lemma index_insert_ne {A} (l : list A) (i i' : Z) x :
  i' ≠ i → 0 ≤ i → index (<[Z.to_nat i := x]> l) i' = index l i'.
Proof.
  intros Hne Hi. destruct (decide (0 ≤ i')) as [Hi'|Hi'].
  - by rewrite index_insert, decide_False by done.
  - unfold index. by rewrite !decide_False by done.
Qed.

(** X3.  [Insert(key, value)] on a table where [Get(key)] already returns
    [(value, true)] returns and leaves the table exactly as it was. *)
Theorem Insert_same_value t key value :
  Get key t = (Ok (value, true), t) → Insert key value t = (Ok (), t).
Proof.
  rewrite Get_eq, Insert_eq.
  destruct (index (table t) (hash t key (m t))) as [b|] eqn:Hb; [|done].
  unfold upsert. destruct (range_find key b) as [[j e]|] eqn:Hf; [|done].
  intros [= Hv]. f_equal. apply Table_eq; [done..|]. simpl.
  apply range_find_Some in Hf as (Hj & _ & _).
  apply index_Some in Hb as [_ Hb].
  replace (Build_kv (Key e) value) with e by (destruct e; simpl in *; by subst).
  by rewrite (list_insert_id b), list_insert_id.
Qed.

(** X4.  Insertions of keys that hash to different buckets commute: either
    order leaves the same table. *)
Theorem Insert_commute t key1 value1 key2 value2 :
  hash t key1 (m t) ≠ hash t key2 (m t) →
  (Insert key2 value2 (Insert key1 value1 t).2).2 =
  (Insert key1 value1 (Insert key2 value2 t).2).2.
Proof.
  intros Hne. apply Table_eq.
  { by rewrite !Insert_hash. }
  { by rewrite !Insert_m. }
  rewrite (Insert_table key2), (Insert_table key1 value1 (Insert _ _ _).2).
  rewrite !Insert_hash, !Insert_m, !Insert_table.
  destruct (index (table t) (hash t key1 (m t))) as [b1|] eqn:Hb1;
    destruct (index (table t) (hash t key2 (m t))) as [b2|] eqn:Hb2;
    try (pose proof Hb1 as [Hpos1 _]%index_Some);
    try (pose proof Hb2 as [Hpos2 _]%index_Some);
    rewrite ?index_insert_ne by done; rewrite ?Hb1, ?Hb2; try done.
  apply list_insert_insert_ne. lia.
Qed.

(** ** Construction with a non-positive bucket count *)


End hashtable_histories.

(** * Further properties of the demonstration *)

Section demonstration_histories.

Lemma New_8 {K V} `{EqDecision K} `{ZeroValue V} (hashFn : K → Z → Z) :
  New (V := V) 8 hashFn = Ok (Build_Table hashFn 8 (replicate 8 [])).
Proof. reflexivity. Qed.

(** X6.  The hash function of [t1] honours the contract for every key and
    every positive bucket count, so no sequence of operations on a table
    constructed with it panics. *)
Theorem t1_hash_contract (n : Z) (os : list (@op string Z)) :
  0 < n →
  (∀ key, 0 ≤ t1_hash key n < n) ∧
  ∃ t0 t, New n t1_hash = Ok t0 ∧ run os t0 = (Ok (), t).
Proof.
  intros Hn. split; [intros key; by apply t1_hash_bounds|].
  eexists _, _. split; [apply New_eq; lia|].
  rewrite (pair_eta (run os _)). f_equal. apply run_ok.
  - split; simpl; [lia|]. by rewrite length_replicate.
  - intros key. by apply t1_hash_bounds.
Qed.

Lemma t2_hash_range (key n : Z) :
  0 < n → (0 ≤ t2_hash key n < n ↔ 0 ≤ key ∨ Z.rem key n = 0).
Proof.
  intros Hn. unfold t2_hash. split.
  - intros [Hlo _]. destruct (decide (0 ≤ key)) as [|Hneg]; [by left|right].
    pose proof (Z.rem_nonpos key n ltac:(lia) ltac:(lia)). lia.
  - intros [Hk| ->]; [|lia]. by apply Z.rem_bound_pos.
Qed.

(** X7.  The hash function of [t2] honours the contract only for keys that
    are non-negative or multiples of the bucket count: on a table built
    with it, [Get] and [Insert] of any other key panic. *)
Theorem t2_operations_ok_iff (n : Z) (os : list (@op Z string))
    (t : Table Z string) (key : Z) (value : string) :
  0 < n → built n t2_hash os t →
  ((∃ r, Get key t = (Ok r, t)) ↔ 0 ≤ key ∨ Z.rem key n = 0) ∧
  ((Insert key value t).1 = Ok () ↔ 0 ≤ key ∨ Z.rem key n = 0).
Proof.
  intros Hn Hb. pose proof (built_well_formed _ _ _ _ Hb) as [Hm Hlen].
  pose proof (built_hash_m _ _ _ _ Hb) as [Hh Hmn].
  assert (0 ≤ hash t key (m t) < Z.of_nat (length (table t)) ↔
          0 ≤ key ∨ Z.rem key n = 0) as Hrange.
  { rewrite Hh, Hlen, Z2Nat.id, Hmn by done. by apply t2_hash_range. }
  pose proof (Get_ok_iff t key) as Hg.
  pose proof (Insert_ok_iff t key value) as Hi.
  split; [|tauto]. etrans; [|etrans; [exact Hg|exact Hrange]].
  split; intros [r Hr]; exists r; [by rewrite Hr|].
  by rewrite (pair_eta (Get key t)), Get_state, Hr.
Qed.

(** ** The logged pairs *)

Lemma last_inserted_absent {K V} `{EqDecision K} (key : K)
    (os : list (@op K V)) acc :
  key ∉ inserted_keys os → last_inserted key os acc = acc.
Proof.
  revert acc. induction os as [|[key'|key' value] os IH]; intros acc Hk; simpl in *.
  - done.
  - by apply IH.
  - apply not_elem_of_cons in Hk as [Hne Hk].
    rewrite IH by done. by rewrite decide_False.
Qed.

Lemma last_inserted_app {K V} `{EqDecision K} (key : K)
    (os1 os2 : list (@op K V)) acc :
  last_inserted key (os1 ++ os2) acc =
    last_inserted key os2 (last_inserted key os1 acc).
Proof.
  revert acc. induction os1 as [|[key'|key' value] os1 IH]; intros acc; simpl; auto.
Qed.

Lemma inserted_keys_imap {K V} (kf : nat → string → K) (vf : nat → string → V)
    (l : list string) (key : K) :
  key ∈ inserted_keys (imap (λ i s, OpInsert (kf i s) (vf i s)) l) →
  ∃ i s, l !! i = Some s ∧ key = kf i s.
Proof.
  revert kf vf. induction l as [|s l IH]; intros kf vf; simpl.
  - by intros ?%not_elem_of_nil.
  - intros [->|Hk]%elem_of_cons; [by exists 0%nat, s|].
    apply (IH (λ i, kf (S i)) (λ i, vf (S i))) in Hk as (i & s' & Hi & ->).
    by exists (S i), s'.
Qed.

Lemma last_inserted_imap {K V} `{EqDecision K}
    (kf : nat → string → K) (vf : nat → string → V) (l : list string) i s :
  l !! i = Some s →
  (∀ i' s', l !! i' = Some s' → kf i' s' = kf i s → i' = i) →
  last_inserted (kf i s) (imap (λ i s, OpInsert (kf i s) (vf i s)) l) None
    = Some (vf i s).
Proof.
  intros Hi Hinj. rewrite <- (take_drop_middle l i s Hi), imap_app.
  rewrite last_inserted_app. simpl.
  assert (length (take i l) = i) as Hlen.
  { apply length_take_le. apply lookup_lt_Some in Hi. lia. }
  rewrite Hlen, Nat.add_0_r, decide_True by done.
  apply last_inserted_absent.
  intros (i' & s' & Hi' & Hk)%(inserted_keys_imap
    (λ n, kf (i + S n)%nat) (λ n, vf (i + S n)%nat)).
  rewrite lookup_drop in Hi'.
  replace (S i + i')%nat with (i + S i')%nat in Hi' by lia.
  pose proof (Hinj _ _ Hi' (eq_sym Hk)). lia.
Qed.

Lemma t1_of_Get (l : list string) (key : string) :
  (Get key (t1_of l)).1 = Ok (found (last_inserted key (fill1_of l) None)).
Proof.
  unfold t1_of. rewrite New_8. apply Get_history.
  - apply run_ok.
    + split; [by vm_compute|reflexivity].
    + intros k. apply t1_hash_bounds. reflexivity.
  - apply (Get_New 8 t1_hash); [reflexivity|]. apply t1_hash_bounds. reflexivity.
Qed.

Lemma t2_of_Get (l : list string) (i : nat) :
  (Get (Z.of_nat i) (t2_of l)).1 =
    Ok (found (last_inserted (Z.of_nat i) (fill2_of l) None)).
Proof.
  unfold t2_of. rewrite New_8. apply Get_history.
  - apply run_ok_keys. apply Forall_forall. intros o Ho. simpl.
    apply list_elem_of_lookup_1 in Ho as [i' Ho]. unfold fill2_of in Ho.
    apply list_lookup_imap_Some in Ho as (s & _ & ->). simpl.
    apply (t2_hash_range _ 8); lia.
  - apply (Get_New 8 t2_hash); [reflexivity|]. apply (t2_hash_range _ 8); lia.
Qed.

(** X8.  For a slice [l] of pairwise distinct strings other than
    ["nope!"], the demonstration logs, for the string [s] at index [i],
    [t1.Get(s) = (i, true)] and [t2.Get(i) = (s, true)] (the tables mirror
    each other), and last, for ["nope!"] and the index after the slice,
    [(0, false)] and [("", false)]. *)
Theorem report_mirror (l : list string) :
  NoDup l → "nope!"%string ∉ l →
  report l =
    imap (λ i s, (Ok (Z.of_nat i, true), Ok (s, true))) l ++
    [(Ok (0, false), Ok (EmptyString, false))].
Proof.
  intros Hnd Hnope. unfold report. rewrite imap_app. f_equal.
  - apply imap_ext. intros i s Hi. simpl. rewrite t1_of_Get, t2_of_Get. f_equal.
    + unfold fill1_of.
      rewrite (last_inserted_imap (λ _ s, s) (λ i _, Z.of_nat i) l i s); [done..|].
      intros i' s' Hi' ->. by eapply NoDup_lookup.
    + unfold fill2_of.
      rewrite (last_inserted_imap (λ i _, Z.of_nat i) (λ _ s, s) l i s); [done..|].
      intros i' s' _ Heq. lia.
  - simpl. rewrite Nat.add_0_r, t1_of_Get, t2_of_Get.
    rewrite (last_inserted_absent "nope!"%string), (last_inserted_absent (Z.of_nat _));
      [done|..].
    + intros (i & s & Hi & Hk)%(inserted_keys_imap (λ i _, Z.of_nat i) (λ _ s, s)).
      apply lookup_lt_Some in Hi. lia.
    + intros (i & s & Hi & Hk)%(inserted_keys_imap (λ _ s, s) (λ i _, Z.of_nat i)).
      apply Hnope. rewrite Hk. by eapply list_elem_of_lookup_2.
Qed.

End demonstration_histories.

(** ** The further properties at the demonstration tables *)

Section demonstration_instances.

Lemma t2_built : built 8 t2_hash fill2 t2.
Proof. eexists. split; reflexivity. Qed.

Lemma strs_NoDup : NoDup strs.
Proof. apply (bool_decide_unpack _). by vm_compute. Qed.

Lemma strs_nope : "nope!"%string ∉ strs.
Proof. apply (bool_decide_unpack _). by vm_compute. Qed.

Lemma Get_last_inserted_witness :
  built 8 t1_hash fill1 t1 ∧ 0 ≤ t1_hash "baz"%string 8 < 8 ∧
  Get "baz"%string t1 =
    (Ok (found (last_inserted "baz"%string fill1 None)), t1).
Proof.
  assert (0 ≤ t1_hash "baz"%string 8 < 8) as Hr by (by vm_compute).
  split; [exact t1_built|]. split; [exact Hr|].
  exact (Get_last_inserted 8 t1_hash fill1 t1 "baz"%string t1_built Hr).
Defined.

Lemma present_iff_inserted_witness :
  built 8 t1_hash fill1 t1 ∧
  (present t1 "baz"%string ↔ "baz"%string ∈ inserted_keys fill1).
Proof.
  split; [exact t1_built|].
  exact (present_iff_inserted 8 t1_hash fill1 t1 "baz"%string t1_built).
Defined.

Lemma Insert_same_value_witness :
  Get "bar"%string t1 = (Ok (1, true), t1) ∧
  Insert "bar"%string 1 t1 = (Ok (), t1).
Proof.
  split; [reflexivity|].
  exact (Insert_same_value t1 "bar"%string 1 eq_refl).
Defined.

Lemma Insert_commute_witness :
  hash t1 "foo"%string (m t1) ≠ hash t1 "bar"%string (m t1) ∧
  (Insert "bar"%string 8 (Insert "foo"%string 7 t1).2).2 =
  (Insert "foo"%string 7 (Insert "bar"%string 8 t1).2).2.
Proof.
  assert (hash t1 "foo"%string (m t1) ≠ hash t1 "bar"%string (m t1)) as Hne
    by (by vm_compute).
  split; [exact Hne|].
  exact (Insert_commute t1 "foo"%string 7 "bar"%string 8 Hne).
Defined.


Lemma t1_hash_contract_witness :
  0 < 8 ∧
  (∀ key, 0 ≤ t1_hash key 8 < 8) ∧
  ∃ t0 t, New 8 t1_hash = Ok t0 ∧ run fill1 t0 = (Ok (), t).
Proof.
  assert (0 < 8) as Hn by lia.
  split; [exact Hn|]. exact (t1_hash_contract 8 fill1 Hn).
Defined.

Lemma t2_operations_ok_iff_witness :
  0 < 8 ∧ built 8 t2_hash fill2 t2 ∧
  ((∃ r, Get (-1) t2 = (Ok r, t2)) ↔ 0 ≤ -1 ∨ Z.rem (-1) 8 = 0) ∧
  ((Insert (-1) "x"%string t2).1 = Ok () ↔ 0 ≤ -1 ∨ Z.rem (-1) 8 = 0).
Proof.
  assert (0 < 8) as Hn by lia.
  split; [exact Hn|]. split; [exact t2_built|].
  exact (t2_operations_ok_iff 8 fill2 t2 (-1) "x"%string Hn t2_built).
Defined.

Lemma report_mirror_witness :
  NoDup strs ∧ ("nope!"%string ∉ strs) ∧
  report strs =
    imap (λ i s, (Ok (Z.of_nat i, true), Ok (s, true))) strs ++
    [(Ok (0, false), Ok (EmptyString, false))].
Proof.
  split; [exact strs_NoDup|]. split; [exact strs_nope|].
  exact (report_mirror strs strs_NoDup strs_nope).
Defined.

Lemma panic_is_bucket_index_witness :
  ((Get (-1) t2).1 = Panicked (IndexOutOfRange (-1) 8) ∨
   (Insert (-1) "x"%string t2).1 = Panicked (IndexOutOfRange (-1) 8)) ∧
  IndexOutOfRange (-1) 8 =
    IndexOutOfRange (hash t2 (-1) (m t2)) (length (table t2)) ∧
  ¬ (0 ≤ hash t2 (-1) (m t2) < Z.of_nat (length (table t2))) ∧
  (Get (-1) t2).2 = t2 ∧ (Insert (-1) "x"%string t2).2 = t2.
Proof.
  assert ((Get (-1) t2).1 = Panicked (IndexOutOfRange (-1) 8) ∨
          (Insert (-1) "x"%string t2).1 = Panicked (IndexOutOfRange (-1) 8))
    as Hp by (left; reflexivity).
  split; [exact Hp|].
  exact (panic_is_bucket_index t2 (-1) "x"%string _ Hp).
Defined.

(** The pairs logged for the slice of the demonstration, as listed with it. *)
Example report_strs :
  report strs =
    [(Ok (0, true), Ok ("foo"%string, true));
     (Ok (1, true), Ok ("bar"%string, true));
     (Ok (2, true), Ok ("baz"%string, true));
     (Ok (0, false), Ok (EmptyString, false))].
Proof. reflexivity. Qed.

End demonstration_instances.
